(** * Battle Subway Helper: the client-side deduction handlers of [App.jsx]

    A shallow embedding of the React component's state and click handlers
    (frontend/src/App.jsx): the pool ordering [poolSortedDex], the pool view
    [visiblePool], and the handlers [toggleDiscard], [confirmSet],
    [removeConfirmed], [resetAll] of the current component, together with
    [markSeen], [unmarkSeen], [resetAll] of the earlier "seen list" component;
    further the lookup map [setById], the seen slots [confirmedSets], the
    header counters, [loadTrainer], and the display helpers
    [setDisplayName] and [prettyMoveNameFromSlug].

    React state is modelled by explicit state passing: a handler is a function
    from the state of the render it was created in to the next state.  Each
    [setX (prev => ...)] call becomes an update of one field. *)

From Stdlib Require Import ZArith NArith Lia String Ascii.
From stdpp Require Import base decidable countable list gmap sorting pretty.

#[local] Set Warnings "-clear-no-such-hyp".

Local Open Scope Z_scope.

(** ** JavaScript values *)

Module Js.

(** A field of a JSON object: absent ([undefined]), [null], or a value of the
    type the dataset gives it.  Strict equality [===] on such fields is
    structural equality. *)
Inductive nullable (A : Type) : Type :=
| Undefined
| Null
| Val (a : A).
Arguments Undefined {A}.
Arguments Null {A}.
Arguments Val {A} a.

#[export] Instance nullable_eq_dec {A} `{EqDecision A} : EqDecision (nullable A).
Proof. solve_decision. Defined.

Definition nullable_to_sum {A} (x : nullable A) : bool + A :=
  match x with
  | Undefined => inl false
  | Null => inl true
  | Val a => inr a
  end.

Definition nullable_of_sum {A} (x : bool + A) : nullable A :=
  match x with
  | inl false => Undefined
  | inl true => Null
  | inr a => Val a
  end.

#[export] Instance nullable_countable {A} `{Countable A} : Countable (nullable A).
Proof.
  apply (inj_countable' nullable_to_sum nullable_of_sum).
  by intros [].
Defined.

(** [x ?? d]: the nullish coalescing operator. *)
Definition coalesce {A} (x : nullable A) (d : A) : A :=
  match x with
  | Val a => a
  | Undefined | Null => d
  end.

(** [typeof x === "number" ? x : d] on a numeric field. *)
Definition number_or (x : nullable Z) (d : Z) : Z :=
  match x with
  | Val n => n
  | Undefined | Null => d
  end.

(** A string is its sequence of UTF-16 code units. *)
Definition jsstring : Type := list N.

Definition of_ascii (s : string) : jsstring :=
  (λ c, N_of_ascii c) <$> list_ascii_of_string s.

(** WhiteSpace and LineTerminator code points of ECMAScript, the characters
    [String.prototype.trim] strips. *)
Definition is_white_space (c : N) : bool :=
  match c with
  | 9 | 10 | 11 | 12 | 13 | 32 | 160 | 5760
  | 8232 | 8233 | 8239 | 8287 | 12288 | 65279 => true
  | _ => (8192 <=? c) && (c <=? 8202)
  end%N.

Fixpoint trim_start (s : jsstring) : jsstring :=
  match s with
  | c :: s' => if is_white_space c then trim_start s' else s
  | [] => []
  end.

Definition trim_end (s : jsstring) : jsstring :=
  reverse (trim_start (reverse s)).

Definition trim (s : jsstring) : jsstring := trim_end (trim_start s).

(** Truthiness of a string: only the empty string is falsy. *)
Definition truthy (s : jsstring) : bool :=
  match s with
  | [] => false
  | _ :: _ => true
  end.

(** [Array.prototype.sort] with a comparator.  ECMAScript leaves the
    algorithm to the engine but fixes the result for a consistent
    comparator: the stable sorted order.  A stable insertion sort computes
    it: [x] goes before the first element it does not compare greater
    than. *)
Section sort.
Context {A : Type} (cmp : A → A → Z).

Fixpoint sort_insert (x : A) (l : list A) : list A :=
  match l with
  | [] => [x]
  | y :: l' =>
      if decide (cmp x y ≤ 0) then x :: y :: l' else y :: sort_insert x l'
  end.

Definition sort (l : list A) : list A := foldr sort_insert [] l.
End sort.

End Js.

Import Js.

(** ** The catalog records served by the backend *)

(** A set identifier as the client holds it: the [global_id] field. *)
Definition gid : Type := nullable Z.

(** One candidate configuration.  Only the four fields the handlers inspect
    are kept apart; [variant_index] stands for the display payload. *)
Record PSet : Type := mkPSet {
  global_id : gid;
  species : nullable jsstring;
  item : nullable jsstring;
  dex_number : nullable Z;
  variant_index : nullable Z
}.

#[export] Instance PSet_eq_dec : EqDecision PSet.
Proof. solve_decision. Defined.

Record Trainer : Type := mkTrainer {
  sets : nullable (list PSet);
  display_name : nullable jsstring;
  name_en : nullable jsstring
}.

(** An entry of the trainer search results. *)
Record Suggestion : Type := mkSuggestion {
  trainer_id : Z;
  suggestion_name : nullable jsstring
}.

(** ** The current component: confirmed list and discarded set *)

Module App.

Record State : Type := mkState {
  q : jsstring;
  suggestions : list Suggestion;
  isSearching : bool;
  trainer : option Trainer;
  confirmed : list gid;          (* array of global_id, order matters *)
  discarded : gset gid;          (* Set<global_id> *)
  showDiscarded : bool;
  showStatsInPool : bool
}.

Definition setQ (s : jsstring) (st : State) : State :=
  mkState s (suggestions st) (isSearching st) (trainer st) (confirmed st)
          (discarded st) (showDiscarded st) (showStatsInPool st).

Definition setSuggestions (l : list Suggestion) (st : State) : State :=
  mkState (q st) l (isSearching st) (trainer st) (confirmed st)
          (discarded st) (showDiscarded st) (showStatsInPool st).

Definition setTrainer (t : option Trainer) (st : State) : State :=
  mkState (q st) (suggestions st) (isSearching st) t (confirmed st)
          (discarded st) (showDiscarded st) (showStatsInPool st).

Definition setConfirmed (f : list gid → list gid) (st : State) : State :=
  mkState (q st) (suggestions st) (isSearching st) (trainer st)
          (f (confirmed st)) (discarded st) (showDiscarded st)
          (showStatsInPool st).

Definition setDiscarded (f : gset gid → gset gid) (st : State) : State :=
  mkState (q st) (suggestions st) (isSearching st) (trainer st)
          (confirmed st) (f (discarded st)) (showDiscarded st)
          (showStatsInPool st).

Definition setShowDiscarded (b : bool) (st : State) : State :=
  mkState (q st) (suggestions st) (isSearching st) (trainer st)
          (confirmed st) (discarded st) b (showStatsInPool st).

Definition setShowStatsInPool (b : bool) (st : State) : State :=
  mkState (q st) (suggestions st) (isSearching st) (trainer st)
          (confirmed st) (discarded st) (showDiscarded st) b.

(** The state of the first render: every [useState] initial value. *)
Definition initial : State :=
  mkState [] [] false None [] ∅ false false.

(** [const poolSets = trainer?.sets ?? []] *)
Definition poolSets (st : State) : list PSet :=
  match trainer st with
  | None => []
  | Some t => coalesce (sets t) []
  end.

(** The comparator of [poolSortedDex]. *)
Definition dex_compare (a b : PSet) : Z :=
  let da := number_or (dex_number a) 999999 in
  let db := number_or (dex_number b) 999999 in
  if decide (da ≠ db) then da - db
  else coalesce (global_id a) 0 - coalesce (global_id b) 0.

Definition poolSortedDex (poolSets : list PSet) : list PSet :=
  Js.sort dex_compare poolSets.

(** visible pool = not confirmed, and (not discarded unless toggle):
    the callback of the [filter] in [visiblePool]. *)
Definition visible (confirmed : list gid) (discarded : gset gid)
    (showDiscarded : bool) (s : PSet) : bool :=
  if decide (global_id s ∈ confirmed) then false
  else
    let isDisc := bool_decide (global_id s ∈ discarded) in
    if isDisc && negb showDiscarded then false else true.

Definition visiblePool (poolSortedDex : list PSet) (confirmed : list gid)
    (discarded : gset gid) (showDiscarded : bool) : list PSet :=
  filter (λ s, Is_true (visible confirmed discarded showDiscarded s))
    poolSortedDex.

Definition resetAll (st : State) : State :=
  setSuggestions []
   (setQ []
    (setShowStatsInPool false
      (setShowDiscarded false
        (setDiscarded (λ _, ∅)
          (setConfirmed (λ _, [])
            (setTrainer None st)))))).

Definition toggleDiscard (globalId : gid) (st : State) : State :=
  setDiscarded (λ prev,
      if decide (globalId ∈ prev) then prev ∖ {[globalId]}
      else {[globalId]} ∪ prev)
    st.

(** The item clause test of the auto-discard loop:
    [confirmedItem && item && item === confirmedItem]. *)
Definition item_clause (confirmedItem item : jsstring) : bool :=
  truthy confirmedItem && truthy item && bool_decide (item = confirmedItem).

(** One iteration of [for (const s of poolSets)] on the copy [next]. *)
Definition discard_step (set : PSet) (next : gset gid) (s : PSet) : gset gid :=
  let confirmedSpecies := species set in
  let confirmedItem := trim (coalesce (item set) []) in
  if decide (global_id s = global_id set) then next
  else if decide (species s = confirmedSpecies) then {[global_id s]} ∪ next
  else
    let item := trim (coalesce (item s) []) in
    if item_clause confirmedItem item then {[global_id s]} ∪ next else next.

Definition auto_discard (poolSets : list PSet) (set : PSet)
    (prev : gset gid) : gset gid :=
  foldl (discard_step set) prev poolSets.

Definition confirmSet (set : option PSet) (st : State) : State :=
  match set with
  | None => st
  | Some set =>
      if decide (4 ≤ length (confirmed st))%nat then st
      else if decide (global_id set ∈ discarded st) then st
      else
        setDiscarded (auto_discard (poolSets st) set)
          (setConfirmed (λ prev, prev ++ [global_id set]) st)
  end.

Definition removeConfirmed (globalId : gid) (st : State) : State :=
  setConfirmed (λ prev, filter (λ x, x ≠ globalId) prev) st.

(** quick map for lookups:
    [for (const s of poolSets) m.set(s.global_id, s)] *)
Definition setById (poolSets : list PSet) : gmap gid PSet :=
  foldl (λ m s, <[global_id s := s]> m) ∅ poolSets.

(** The four slots of the "Seen" panel:
    [slots[i] = setById.get(confirmed[i]) ?? null] for
    [i < Math.min(4, confirmed.length)]. *)
Definition confirmedSets (confirmed : list gid) (setById : gmap gid PSet)
    : list (option PSet) :=
  foldl (λ slots i, <[i := confirmed !! i ≫= (setById !!.)]> slots)
    [None; None; None; None]
    (seq 0 (4 `min` length confirmed)).

(** The counters of the pool header. *)
Definition total (st : State) : nat := length (poolSets st).
Definition confirmedCount (st : State) : nat := length (confirmed st).
Definition discardedCount (st : State) : nat := size (discarded st).
Definition shownCount (st : State) : nat :=
  length (visiblePool (poolSortedDex (poolSets st)) (confirmed st)
            (discarded st) (showDiscarded st)).

(** The props of a pool tile: [canConfirm={confirmed.length < 4}],
    [isDiscarded={discarded.has(s.global_id)}], and the confirm button's
    [disabled={!canConfirm || isDiscarded}]. *)
Definition canConfirm (st : State) : bool :=
  bool_decide (length (confirmed st) < 4)%nat.

Definition isDiscarded (st : State) (s : PSet) : bool :=
  bool_decide (global_id s ∈ discarded st).

Definition confirm_disabled (st : State) (s : PSet) : bool :=
  negb (canConfirm st) || isDiscarded st s.




End App.

(** ** The earlier component: the seen list sent to the backend filter *)

Module SeenApp.

(** The backend's answer to [POST /pools/:id/filter], kept as received. *)
Record FilterInfo : Type := mkFilterInfo {
  num_possible_teams : Z;
  possible_remaining_sets : list PSet
}.

Record State : Type := mkState {
  q : jsstring;
  suggestions : list Suggestion;
  trainer : option Trainer;
  selectedSet : option PSet;
  seen : list gid;
  filterInfo : option FilterInfo
}.

Definition setQ (s : jsstring) (st : State) : State :=
  mkState s (suggestions st) (trainer st) (selectedSet st) (seen st)
          (filterInfo st).

Definition setSuggestions (l : list Suggestion) (st : State) : State :=
  mkState (q st) l (trainer st) (selectedSet st) (seen st) (filterInfo st).

Definition setTrainer (t : option Trainer) (st : State) : State :=
  mkState (q st) (suggestions st) t (selectedSet st) (seen st)
          (filterInfo st).

Definition setSelectedSet (s : option PSet) (st : State) : State :=
  mkState (q st) (suggestions st) (trainer st) s (seen st) (filterInfo st).

Definition setSeen (f : list gid → list gid) (st : State) : State :=
  mkState (q st) (suggestions st) (trainer st) (selectedSet st)
          (f (seen st)) (filterInfo st).

Definition setFilterInfo (i : option FilterInfo) (st : State) : State :=
  mkState (q st) (suggestions st) (trainer st) (selectedSet st) (seen st) i.

Definition initial : State := mkState [] [] None None [] None.

(** [seenSet.has(globalId)] with [seenSet = new Set(seen)]. *)
Definition markSeen (globalId : gid) (st : State) : State :=
  if decide (globalId ∈ seen st) then st
  else if decide (4 ≤ length (seen st))%nat then st
  else setSeen (λ prev, prev ++ [globalId]) st.

Definition unmarkSeen (globalId : gid) (st : State) : State :=
  setSeen (λ prev, filter (λ x, x ≠ globalId) prev) st.

Definition resetAll (st : State) : State :=
  setSuggestions []
    (setQ []
      (setFilterInfo None
        (setSeen (λ _, [])
          (setSelectedSet None
            (setTrainer None st))))).

End SeenApp.

(** ** Display helpers *)

Module Display.

(** A number in a template literal: an integer of absolute value below
    10^21 prints in decimal (from there on the engine prints the exponent
    form, which this definition does not follow). *)
Definition number_to_string (n : Z) : jsstring := of_ascii (pretty n).

(** A nullable string in a template literal. *)
Definition template_string (x : nullable jsstring) : jsstring :=
  match x with
  | Undefined => of_ascii "undefined"
  | Null => of_ascii "null"
  | Val s => s
  end.

(** [setDisplayName]: the species, followed by [-v] for a variant index
    [v] that is a number other than 0. *)
Definition setDisplayName (set : option PSet) : nullable jsstring :=
  match set with
  | None => Val []
  | Some set =>
      let v := match variant_index set with Val n => Some n | _ => None end in
      match v with
      | Some n =>
          if decide (n ≠ 0)
          then Val (template_string (species set) ++ of_ascii "-"
                    ++ number_to_string n)
          else species set
      | None => species set
      end
  end.

(** [String.prototype.split] on a one-character separator. *)
Fixpoint split (sep : N) (s : jsstring) : list jsstring :=
  match s with
  | [] => [[]]
  | c :: s' =>
      if decide (c = sep) then [] :: split sep s'
      else
        match split sep s' with
        | w :: ws => (c :: w) :: ws
        | [] => [[c]]
        end
  end.

(** [Array.prototype.join]. *)
Fixpoint join (sep : jsstring) (l : list jsstring) : jsstring :=
  match l with
  | [] => []
  | [w] => w
  | w :: l' => w ++ sep ++ join sep l'
  end.

Section slug.
(** [String.prototype.toUpperCase], the engine's Unicode mapping. *)
Context (toUpperCase : jsstring → jsstring).

(** [w.charAt(0).toUpperCase() + w.slice(1)] *)
Definition capitalize (w : jsstring) : jsstring :=
  toUpperCase (take 1 w) ++ drop 1 w.

Definition prettyMoveNameFromSlug (slug : nullable jsstring)
    : nullable jsstring :=
  match slug with
  | Undefined | Null => Null
  | Val slug =>
      if truthy slug
      then Val (join (of_ascii " ")
                  (capitalize <$> filter (λ w, Is_true (truthy w))
                                    (split 45%N slug)))
      else Null
  end.

(** The label of a move row:
    [prettyMoveNameFromSlug(m.slug) ?? m.name]. *)
Definition move_label (slug name : nullable jsstring) : nullable jsstring :=
  match prettyMoveNameFromSlug slug with
  | Val l => Val l
  | Undefined | Null => name
  end.
End slug.

(** Upper case on the letters a to z, the part of [toUpperCase] that the
    slugs of the dataset exercise. *)
Definition ascii_upper (s : jsstring) : jsstring :=
  (λ c, if (97 <=? c)%N && (c <=? 122)%N then (c - 32)%N else c) <$> s.

End Display.

(** * Vocabulary of the properties *)

Import App.

(** The item a set holds, as the item clause reads it:
    [(s.item ?? "").trim()]. *)
Definition item_key (s : PSet) : jsstring := trim (coalesce (item s) []).

(** [t] is another variant of the species of the confirmed [set]. *)
Definition same_species_variant (set t : PSet) : Prop :=
  global_id t ≠ global_id set ∧ species t = species set.

(** [t] is another set holding the non-empty item of the confirmed [set]. *)
Definition item_clash (set t : PSet) : Prop :=
  global_id t ≠ global_id set ∧
  item_key t ≠ [] ∧ item_key set ≠ [] ∧ item_key t = item_key set.

(** The sort keys in the words of the footer, "Pool sorted by Pokédex,
    then global_id": a set without a numeric [dex_number] counts as 999999,
    one without a [global_id] as 0. *)
Definition dex_key (s : PSet) : Z :=
  match dex_number s with
  | Val n => n
  | _ => 999999
  end.

Definition id_key (s : PSet) : Z :=
  match global_id s with
  | Val n => n
  | _ => 0
  end.

(** The [dex_number] of [s] is a number. *)
Definition has_dex_number (s : PSet) : Prop := ∃ n, dex_number s = Val n.

Definition dex_order (a b : PSet) : Prop :=
  dex_key a < dex_key b ∨ (dex_key a = dex_key b ∧ id_key a ≤ id_key b).

(** The team invariant: at most four slots, no id twice. *)
Definition team_inv (l : list gid) : Prop := (length l ≤ 4)%nat ∧ NoDup l.

(** One state-changing operation on the seen list (earlier component) or
    on the confirmed list (current component), as the component invokes it.
    [confirmSet] is an inner function of the component whose only call is
    [onConfirm(set)] on a tile of [visiblePool.map(...)]: [step_confirmSet]
    is that call. *)
Inductive team_step : list gid → list gid → Prop :=
| step_markSeen st g :
    team_step (SeenApp.seen st) (SeenApp.seen (SeenApp.markSeen g st))
| step_unmarkSeen st g :
    team_step (SeenApp.seen st) (SeenApp.seen (SeenApp.unmarkSeen g st))
| step_resetAll_seen st :
    team_step (SeenApp.seen st) (SeenApp.seen (SeenApp.resetAll st))
| step_confirmSet st s :
    s ∈ visiblePool (poolSortedDex (poolSets st)) (confirmed st)
          (discarded st) (showDiscarded st) →
    team_step (confirmed st) (confirmed (confirmSet (Some s) st))
| step_confirmSet_null st :
    team_step (confirmed st) (confirmed (confirmSet None st))
| step_removeConfirmed st g :
    team_step (confirmed st) (confirmed (removeConfirmed g st))
| step_resetAll st :
    team_step (confirmed st) (confirmed (resetAll st)).

(** What a deduction step reads: the pool, the confirmed list and the
    discarded set.  Everything else in the state is hidden from it. *)
Definition same_inputs (st1 st2 : State) : Prop :=
  poolSets st1 = poolSets st2 ∧
  confirmed st1 = confirmed st2 ∧
  discarded st1 = discarded st2.

(** Two different sets of the pool with one species are both in [ids]. *)
Definition species_conflict (pool : list PSet) (ids : list gid) : Prop :=
  ∃ a b, a ∈ pool ∧ b ∈ pool ∧ global_id a ≠ global_id b ∧
         species a = species b ∧ global_id a ∈ ids ∧ global_id b ∈ ids.

(** [t] is excluded by the confirmed [c]: another variant of its species,
    or another holder of its item. *)
Definition conflicts (c t : PSet) : Prop :=
  same_species_variant c t ∨ item_clash c t.

(** No two different pool sets among [ids] share a species or a non-empty
    trimmed item. *)
Definition legal_team (pool : list PSet) (ids : list gid) : Prop :=
  ∀ a b, a ∈ pool → b ∈ pool →
         global_id a ∈ ids → global_id b ∈ ids →
         global_id a ≠ global_id b →
         species a ≠ species b ∧
         ¬ (item_key a ≠ [] ∧ item_key a = item_key b).

(** The discarded set covers the confirmed picks: pool ids are unique, what
    a confirmed set excludes is discarded, and no confirmed id is
    discarded. *)
Definition covered (st : State) : Prop :=
  NoDup (global_id <$> poolSets st) ∧
  (∀ c t, c ∈ poolSets st → t ∈ poolSets st →
          global_id c ∈ confirmed st → conflicts c t →
          global_id t ∈ discarded st) ∧
  (∀ g, g ∈ confirmed st → g ∉ discarded st).

(** The moves of a user who never takes a discard back: confirm a pool set,
    remove a confirmed one, discard a set shown in the pool. *)
Inductive forward_step : State → State → Prop :=
| forward_confirm st s :
    s ∈ poolSets st → forward_step st (confirmSet (Some s) st)
| forward_remove st g :
    forward_step st (removeConfirmed g st)
| forward_discard st g :
    g ∉ discarded st → g ∉ confirmed st →
    forward_step st (toggleDiscard g st).

(** Confirming a pool set, the only move of a user who just reports what
    the opponent reveals. *)
Inductive confirm_step : State → State → Prop :=
| confirm_step_intro st s :
    s ∈ poolSets st → confirm_step st (confirmSet (Some s) st).

(** The discarded ids are exactly the ids of the pool sets that some
    confirmed pool set excludes. *)
Definition exact_discards (st : State) : Prop :=
  ∀ g, g ∈ discarded st ↔
       ∃ c t, c ∈ poolSets st ∧ t ∈ poolSets st ∧
              global_id c ∈ confirmed st ∧ global_id t = g ∧ conflicts c t.

(** ** A small pool *)

Module Fixture.

Definition mk (g : Z) (sp it : string) (dex : Z) : PSet :=
  mkPSet (Val g) (Val (of_ascii sp)) (Val (of_ascii it)) (Val dex) Undefined.

Definition A1 : PSet := mk 1 "Pikachu" "X" 25.
Definition A2 : PSet := mk 2 "Pikachu" "Y" 25.
Definition B1 : PSet := mk 3 "Eevee" " X " 133.
Definition C1 : PSet := mk 4 "Snorlax" "Z" 143.
Definition D1 : PSet :=
  mkPSet (Val 5) (Val (of_ascii "Togepi")) Null Undefined Undefined.

Definition pool : list PSet := [D1; C1; B1; A2; A1].

Definition loaded : State :=
  setTrainer (Some (mkTrainer (Val pool) Null (Val (of_ascii "Ingo")))) initial.

End Fixture.

(** * Properties *)

(** ** Sorting with a consistent comparator *)

Section sort_correct.
Context {A : Type} (cmp : A → A → Z).
Hypothesis cmp_total : ∀ a b, cmp a b ≤ 0 ∨ cmp b a ≤ 0.
Hypothesis cmp_trans : ∀ a b c, cmp a b ≤ 0 → cmp b c ≤ 0 → cmp a c ≤ 0.

Let before (a b : A) : Prop := cmp a b ≤ 0.

Lemma sort_insert_Permutation x l : sort_insert cmp x l ≡ₚ x :: l.
Proof using Type.
  induction l as [|y l IH]; simpl; [done|].
  case_decide; [done|].
  rewrite IH. apply Permutation_swap.
Qed.

Lemma sort_Permutation l : Js.sort cmp l ≡ₚ l.
Proof using Type.
  induction l as [|x l IH]; simpl; [done|].
  by rewrite sort_insert_Permutation, IH.
Qed.

Lemma sort_insert_sorted x l :
  StronglySorted before l → StronglySorted before (sort_insert cmp x l).
Proof using cmp_total cmp_trans.
  induction l as [|y l IH]; simpl; intros Hl.
  - repeat constructor.
  - apply StronglySorted_cons in Hl as [Hy Hl].
    case_decide as Hxy.
    + apply StronglySorted_cons. split.
      * constructor; [done|].
        eapply Forall_impl; [exact Hy|].
        intros z Hyz. by apply (cmp_trans x y z).
      * by apply StronglySorted_cons.
    + apply StronglySorted_cons. split; [|by apply IH].
      rewrite sort_insert_Permutation. constructor; [|done].
      destruct (cmp_total x y); [done|done].
Qed.

Lemma sort_sorted l : StronglySorted before (Js.sort cmp l).
Proof using cmp_total cmp_trans.
  induction l as [|x l IH]; simpl; [constructor|].
  by apply sort_insert_sorted.
Qed.
End sort_correct.


(** ** The pool order *)

Lemma dex_compare_order a b : dex_compare a b ≤ 0 ↔ dex_order a b.
Proof.
  unfold dex_compare, dex_order, dex_key, id_key, number_or, coalesce.
  destruct (dex_number a), (dex_number b), (global_id a), (global_id b);
    case_decide; lia.
Qed.

Lemma dex_compare_total a b : dex_compare a b ≤ 0 ∨ dex_compare b a ≤ 0.
Proof. rewrite !dex_compare_order. unfold dex_order. lia. Qed.

Lemma dex_compare_trans a b c :
  dex_compare a b ≤ 0 → dex_compare b c ≤ 0 → dex_compare a c ≤ 0.
Proof. rewrite !dex_compare_order. unfold dex_order. lia. Qed.

Lemma poolSortedDex_Permutation pool : poolSortedDex pool ≡ₚ pool.
Proof. apply sort_Permutation. Qed.

Lemma poolSortedDex_sorted pool : StronglySorted dex_order (poolSortedDex pool).
Proof.
  pose proof (sort_sorted dex_compare dex_compare_total dex_compare_trans pool)
    as Hsorted.
  unfold poolSortedDex.
  induction Hsorted as [|a l _ IH Ha]; constructor; [done|].
  eapply Forall_impl; [exact Ha|].
  intros b. apply dex_compare_order.
Qed.

(** ** The auto-discard loop *)

Lemma item_clause_true ci i :
  item_clause ci i = true ↔ i ≠ [] ∧ ci ≠ [] ∧ i = ci.
Proof.
  unfold item_clause. rewrite !andb_true_iff, bool_decide_eq_true.
  destruct ci, i; simpl; naive_solver.
Qed.

Lemma elem_of_discard_step set next s g :
  g ∈ discard_step set next s ↔
  g ∈ next ∨ (global_id s = g ∧ (same_species_variant set s ∨ item_clash set s)).
Proof.
  unfold discard_step, same_species_variant, item_clash.
  fold (item_key set) (item_key s).
  case_decide as Hid; [naive_solver|].
  case_decide as Hsp; [set_solver|].
  destruct (item_clause (item_key set) (item_key s)) eqn:Hit.
  - apply item_clause_true in Hit. set_solver.
  - assert (¬ (item_key s ≠ [] ∧ item_key set ≠ [] ∧ item_key s = item_key set))
      by (rewrite <- item_clause_true; congruence).
    naive_solver.
Qed.

Lemma elem_of_auto_discard pool set prev g :
  g ∈ auto_discard pool set prev ↔
  g ∈ prev ∨
  ∃ t, t ∈ pool ∧ global_id t = g ∧
       (same_species_variant set t ∨ item_clash set t).
Proof.
  unfold auto_discard. revert prev.
  induction pool as [|s pool IH]; intros prev; simpl.
  - set_solver.
  - rewrite IH, elem_of_discard_step. split.
    + intros [[?|[? ?]]|(t & ? & ? & ?)]; [by left| |].
      * right. exists s. split; [left|done].
      * right. exists t. split; [by right|done].
    + intros [?|(t & [->|?]%elem_of_cons & ? & ?)].
      * by left; left.
      * left. by right.
      * right. by exists t.
Qed.

(** ** Confirming a set *)

Lemma confirmSet_success st s :
  (length (confirmed st) < 4)%nat →
  global_id s ∉ discarded st →
  confirmSet (Some s) st =
    setDiscarded (auto_discard (poolSets st) s)
      (setConfirmed (λ prev, prev ++ [global_id s]) st).
Proof.
  intros Hlen Hdisc. unfold confirmSet.
  case_decide; [lia|]. by case_decide.
Qed.

Lemma confirmSet_appends_aux st s :
  (length (confirmed st) < 4)%nat →
  global_id s ∉ discarded st →
  confirmed (confirmSet (Some s) st) = confirmed st ++ [global_id s] ∧
  discarded (confirmSet (Some s) st)
  = auto_discard (poolSets st) s (discarded st).
Proof. intros Hlen Hdisc. by rewrite confirmSet_success. Qed.

Lemma confirmSet_cases set st :
  confirmSet set st = st ∨
  ∃ s, set = Some s ∧
       confirmSet set st =
         setDiscarded (auto_discard (poolSets st) s)
           (setConfirmed (λ prev, prev ++ [global_id s]) st).
Proof.
  destruct set as [s|]; [|by left]. simpl.
  case_decide; [by left|]. case_decide; [by left|].
  right. by exists s.
Qed.

Lemma poolSets_confirmSet set st : poolSets (confirmSet set st) = poolSets st.
Proof. by destruct (confirmSet_cases set st) as [->|(s & _ & ->)]. Qed.

Lemma auto_discard_superset pool set prev : prev ⊆ auto_discard pool set prev.
Proof. intros g Hg. apply elem_of_auto_discard. by left. Qed.

(** C1: when fewer than four sets are confirmed and [s] is not discarded,
    [confirmSet s] appends the id of [s] to the confirmed list, and an id is
    in the new discarded set exactly when it was in the old one, or belongs
    to another pool set of the species of [s], or to another pool set whose
    trimmed item is non-empty and equals the non-empty trimmed item of [s]. *)
Theorem confirmSet_appends_and_discards (st : State) (s : PSet) :
  (length (confirmed st) < 4)%nat →
  global_id s ∉ discarded st →
  confirmed (confirmSet (Some s) st) = confirmed st ++ [global_id s] ∧
  ∀ g, g ∈ discarded (confirmSet (Some s) st) ↔
       g ∈ discarded st ∨
       (∃ t, t ∈ poolSets st ∧ global_id t = g ∧
             global_id t ≠ global_id s ∧ species t = species s) ∨
       (∃ t, t ∈ poolSets st ∧ global_id t = g ∧
             global_id t ≠ global_id s ∧
             item_key t ≠ [] ∧ item_key s ≠ [] ∧ item_key t = item_key s).
Proof.
  intros Hlen Hdisc. rewrite confirmSet_success by done.
  split; [done|]. intros g. simpl.
  rewrite elem_of_auto_discard.
  unfold same_species_variant, item_clash. naive_solver.
Qed.

Lemma confirmSet_appends_and_discards_witness :
  confirmed (confirmSet (Some Fixture.A1) Fixture.loaded) = [Val 1] ∧
  (Val 3 : gid) ∈ discarded (confirmSet (Some Fixture.A1) Fixture.loaded).
Proof.
  assert (Hlen : (length (confirmed Fixture.loaded) < 4)%nat)
    by (vm_compute; lia).
  assert (Hdisc : global_id Fixture.A1 ∉ discarded Fixture.loaded)
    by (vm_compute; set_solver).
  destruct (confirmSet_appends_and_discards Fixture.loaded Fixture.A1 Hlen Hdisc)
    as [Hconf Hmem].
  split; [exact Hconf|].
  apply Hmem. right. right. exists Fixture.B1.
  repeat split; try (vm_compute; congruence).
  vm_compute. set_solver.
Defined.

(** C2: whatever the state and the argument, the discarded set after
    [confirmSet] contains the discarded set before, and the pool shown with
    discarded sets hidden after it is a sublist, hence a subset, of the pool
    shown before. *)
Theorem confirmSet_shrinks (st : State) (set : option PSet) :
  discarded st ⊆ discarded (confirmSet set st) ∧
  visiblePool (poolSortedDex (poolSets (confirmSet set st)))
      (confirmed (confirmSet set st)) (discarded (confirmSet set st)) false
    ⊆ visiblePool (poolSortedDex (poolSets st))
        (confirmed st) (discarded st) false ∧
  (visiblePool (poolSortedDex (poolSets (confirmSet set st)))
      (confirmed (confirmSet set st)) (discarded (confirmSet set st)) false
    `sublist_of` visiblePool (poolSortedDex (poolSets st))
        (confirmed st) (discarded st) false).
Proof.
  assert (Hd : discarded st ⊆ discarded (confirmSet set st)).
  { destruct (confirmSet_cases set st) as [->|(s & _ & ->)]; [done|].
    apply auto_discard_superset. }
  assert (Hc : ∀ g, g ∈ confirmed st → g ∈ confirmed (confirmSet set st)).
  { destruct (confirmSet_cases set st) as [->|(s & _ & ->)]; [done|].
    simpl. intros g Hg. apply elem_of_app. by left. }
  rewrite poolSets_confirmSet.
  assert (Hvis : ∀ x,
    visible (confirmed (confirmSet set st)) (discarded (confirmSet set st)) false x →
    visible (confirmed st) (discarded st) false x).
  { intros x. unfold visible. simpl. rewrite !andb_true_r.
    destruct (decide (global_id x ∈ confirmed (confirmSet set st)))
      as [|Hnc]; [done|].
    rewrite decide_False by auto.
    destruct (bool_decide_reflect (global_id x ∈ discarded st)) as [Hx|Hx];
      [|done].
    apply Hd in Hx. by rewrite bool_decide_eq_true_2. }
  split; [exact Hd|].
  unfold visiblePool.
  induction (poolSortedDex (poolSets st)) as [|x l [IH1 IH2]].
  - split; [done|]. constructor.
  - rewrite !filter_cons. specialize (Hvis x).
    destruct (decide (visible (confirmed (confirmSet set st))
                        (discarded (confirmSet set st)) false x)) as [Hx|Hx].
    + rewrite decide_True by auto. split.
      * intros y [->|Hy]%elem_of_cons; [left|right; by apply IH1].
      * by constructor.
    + case_decide.
      * split; [intros y Hy; right; by apply IH1|by constructor].
      * done.
Qed.

Lemma item_clause_empty_l i : item_clause [] i = false.
Proof. done. Qed.

Lemma item_clause_empty_r ci : item_clause ci [] = false.
Proof. unfold item_clause. by rewrite andb_false_r. Qed.

Lemma pool_set_of_id (pool : list PSet) (t t' : PSet) :
  NoDup (global_id <$> pool) → t ∈ pool → t' ∈ pool →
  global_id t' = global_id t → t' = t.
Proof.
  induction pool as [|x pool IH]; simpl; [by intros _ ?%elem_of_nil|].
  rewrite NoDup_cons. intros [Hx Hnd] Ht Ht' Hid.
  apply elem_of_cons in Ht as [->|Ht], Ht' as [->|Ht']; [done| | |by apply IH].
  - destruct Hx. rewrite <- Hid. by apply list_elem_of_fmap_2.
  - destruct Hx. rewrite Hid. by apply list_elem_of_fmap_2.
Qed.

(** C6: an empty item imposes no item-clause exclusion.  (1) When the trimmed
    item of the confirmed set or of the pool set [t] is empty, the item test
    of the loop is false on [t], and the loop adds the id of [t] only as
    another variant of the species.  (2) Confirming a set whose trimmed item
    is empty adds to the discarded set the ids of the other variants of its
    species and nothing else.  (3) In a pool with unique ids, a pool set whose
    trimmed item is empty is discarded after a confirmation only if it was
    before or is another variant of the confirmed species. *)
Theorem empty_item_discards_nothing (st : State) (set t : PSet) (next : gset gid) :
  (item_key set = [] ∨ item_key t = [] →
     item_clause (item_key set) (item_key t) = false ∧
     discard_step set next t =
       if decide (global_id t ≠ global_id set ∧ species t = species set)
       then {[global_id t]} ∪ next else next) ∧
  (item_key set = [] →
   (length (confirmed st) < 4)%nat →
   global_id set ∉ discarded st →
   ∀ g, g ∈ discarded (confirmSet (Some set) st) ↔
        g ∈ discarded st ∨
        ∃ t', t' ∈ poolSets st ∧ global_id t' = g ∧
              global_id t' ≠ global_id set ∧ species t' = species set) ∧
  (item_key t = [] →
   NoDup (global_id <$> poolSets st) →
   t ∈ poolSets st →
   global_id t ∈ discarded (confirmSet (Some set) st) →
   global_id t ∈ discarded st ∨
   (global_id t ≠ global_id set ∧ species t = species set)).
Proof.
  split; [|split].
  - intros Hempty.
    assert (Hit : item_clause (item_key set) (item_key t) = false).
    { destruct Hempty as [-> | ->];
        [apply item_clause_empty_l|apply item_clause_empty_r]. }
    split; [done|].
    unfold discard_step. fold (item_key set) (item_key t). rewrite Hit.
    repeat case_decide; naive_solver.
  - intros Hempty Hlen Hdisc g.
    rewrite confirmSet_success by done. simpl.
    rewrite elem_of_auto_discard.
    unfold same_species_variant, item_clash. naive_solver.
  - intros Hempty Hnd Ht Hin.
    destruct (confirmSet_cases (Some set) st) as [Heq|(s & [= <-] & Heq)];
      rewrite Heq in Hin; [by left|].
    simpl in Hin. apply elem_of_auto_discard in Hin
      as [?|(t' & Ht' & Hid & Hwhy)]; [by left|].
    assert (t' = t) as -> by by apply (pool_set_of_id (poolSets st)).
    right. unfold same_species_variant, item_clash in Hwhy. naive_solver.
Qed.

Lemma empty_item_discards_nothing_witness :
  item_clause (item_key Fixture.A1) (item_key Fixture.D1) = false ∧
  ((Val 3 : gid) ∈ discarded (confirmSet (Some Fixture.D1) Fixture.loaded) ↔
   (Val 3 : gid) ∈ discarded Fixture.loaded ∨
   ∃ t', t' ∈ poolSets Fixture.loaded ∧ global_id t' = Val 3 ∧
         global_id t' ≠ global_id Fixture.D1 ∧
         species t' = species Fixture.D1) ∧
  (global_id Fixture.D1 ∈ discarded (confirmSet (Some Fixture.A1) Fixture.loaded) →
   global_id Fixture.D1 ∈ discarded Fixture.loaded ∨
   (global_id Fixture.D1 ≠ global_id Fixture.A1 ∧
    species Fixture.D1 = species Fixture.A1)).
Proof.
  split; [|split].
  - apply (proj1 (empty_item_discards_nothing
             Fixture.loaded Fixture.A1 Fixture.D1 ∅)).
    right. reflexivity.
  - apply (proj1 (proj2 (empty_item_discards_nothing
             Fixture.loaded Fixture.D1 Fixture.A1 ∅))).
    + reflexivity.
    + vm_compute. lia.
    + vm_compute. set_solver.
  - apply (proj2 (proj2 (empty_item_discards_nothing
             Fixture.loaded Fixture.A1 Fixture.D1 ∅))).
    + reflexivity.
    + vm_compute. repeat constructor; set_solver.
    + vm_compute. set_solver.
Defined.

Lemma confirmSet_full_noop st s :
  (4 ≤ length (confirmed st))%nat → confirmSet (Some s) st = st.
Proof. intros Hfull. unfold confirmSet. by case_decide. Qed.

Lemma confirmSet_discarded_noop st s :
  global_id s ∈ discarded st → confirmSet (Some s) st = st.
Proof.
  intros Hdisc. unfold confirmSet. case_decide; [done|]. by case_decide.
Qed.

(** C8: [confirmSet] on a set that is discarded, or when four ids are
    already confirmed, returns the state it was given: nothing changes and
    the handler has no other outcome. *)
Theorem confirmSet_guarded_noop (st : State) (s : PSet) :
  global_id s ∈ discarded st ∨ (4 ≤ length (confirmed st))%nat →
  confirmSet (Some s) st = st.
Proof.
  intros [Hdisc|Hfull].
  - by apply confirmSet_discarded_noop.
  - by apply confirmSet_full_noop.
Qed.

Lemma confirmSet_guarded_noop_witness :
  confirmSet (Some Fixture.A2) (confirmSet (Some Fixture.A1) Fixture.loaded)
  = confirmSet (Some Fixture.A1) Fixture.loaded.
Proof.
  apply confirmSet_guarded_noop.
  left. vm_compute. set_solver.
Defined.

(** ** Discarding by hand *)

Lemma elem_of_toggleDiscard g h st :
  h ∈ discarded (toggleDiscard g st) ↔
  if decide (h = g) then h ∉ discarded st else h ∈ discarded st.
Proof.
  unfold toggleDiscard. simpl.
  destruct (decide (g ∈ discarded st)); case_decide; set_solver.
Qed.

(** C9: [toggleDiscard g] flips the membership of [g] in the discarded set
    and of no other id, touches no other part of the state, and applied twice
    gives back the state it started from. *)
Theorem toggleDiscard_point_involution (st : State) (g h : gid) :
  (h ∈ discarded (toggleDiscard g st) ↔
     if decide (h = g) then h ∉ discarded st else h ∈ discarded st) ∧
  confirmed (toggleDiscard g st) = confirmed st ∧
  discarded (toggleDiscard g (toggleDiscard g st)) = discarded st ∧
  toggleDiscard g (toggleDiscard g st) = st.
Proof.
  split; [apply elem_of_toggleDiscard|]. split; [done|].
  assert (Hd : discarded (toggleDiscard g (toggleDiscard g st)) = discarded st).
  { apply set_eq. intros x.
    rewrite (elem_of_toggleDiscard g x (toggleDiscard g st)).
    destruct (decide (x = g)) as [->|Hne].
    - rewrite (elem_of_toggleDiscard g g st), decide_True by done.
      split; [apply dec_stable|auto].
    - by rewrite (elem_of_toggleDiscard g x st), decide_False. }
  split; [exact Hd|].
  destruct st as [q0 sg se tr c d sd ss]. simpl in Hd.
  unfold toggleDiscard, setDiscarded in *. simpl in *. by rewrite Hd.
Qed.

(** ** Removing a confirmed set *)

(** C3: [removeConfirmed g] leaves a confirmed list without [g] in which
    every other id keeps its occurrences and its order (the result is the
    sublist of the ids other than [g]), and it leaves the discarded set as
    it was: what a confirmation discarded stays discarded when the
    confirmation is removed. *)
Theorem removeConfirmed_frame (st : State) (g : gid) (s : PSet) :
  (g ∉ confirmed (removeConfirmed g st)) ∧
  (confirmed (removeConfirmed g st) `sublist_of` confirmed st) ∧
  (∀ x, x ≠ g →
        filter (λ y, y = x) (confirmed (removeConfirmed g st))
        = filter (λ y, y = x) (confirmed st)) ∧
  discarded (removeConfirmed g st) = discarded st ∧
  discarded (removeConfirmed (global_id s) (confirmSet (Some s) st))
  = discarded (confirmSet (Some s) st).
Proof.
  split; [|split; [|split; [|split]]]; unfold removeConfirmed; simpl.
  - rewrite list_elem_of_filter. naive_solver.
  - apply sublist_filter.
  - intros x Hx. induction (confirmed st) as [|y l IH]; [done|].
    rewrite !filter_cons.
    destruct (decide (y ≠ g)) as [Hy|Hy].
    + rewrite !filter_cons. case_decide; by rewrite IH.
    + rewrite decide_False; [done|]. intros ->. by apply dec_stable in Hy.
  - done.
  - done.
Qed.

Lemma removeConfirmed_frame_witness :
  filter (λ y, y = Val 4)
    (confirmed (removeConfirmed (Val 1)
       (confirmSet (Some Fixture.C1) (confirmSet (Some Fixture.A1) Fixture.loaded))))
  = filter (λ y, y = Val 4)
      (confirmed
         (confirmSet (Some Fixture.C1) (confirmSet (Some Fixture.A1) Fixture.loaded))).
Proof.
  apply (proj1 (proj2 (proj2 (removeConfirmed_frame
           (confirmSet (Some Fixture.C1) (confirmSet (Some Fixture.A1) Fixture.loaded))
           (Val 1) Fixture.A1)))).
  discriminate.
Defined.

(** ** Determinism *)

Lemma toggleDiscard_inputs g st :
  poolSets (toggleDiscard g st) = poolSets st ∧
  confirmed (toggleDiscard g st) = confirmed st.
Proof. done. Qed.

(** C7: the deduction step reads nothing but the pool, the confirmed list,
    the discarded set and its argument.  From two states that agree on these
    three (and may differ in every other field), each of [confirmSet],
    [toggleDiscard] and [removeConfirmed] with the same argument yields
    states that agree on them again. *)
Theorem handlers_deterministic (st1 st2 : State) :
  same_inputs st1 st2 →
  (∀ set, same_inputs (confirmSet set st1) (confirmSet set st2)) ∧
  (∀ g, same_inputs (toggleDiscard g st1) (toggleDiscard g st2)) ∧
  (∀ g, same_inputs (removeConfirmed g st1) (removeConfirmed g st2)).
Proof.
  intros (Hp & Hc & Hd). repeat split.
  - by rewrite !poolSets_confirmSet.
  - unfold confirmSet. destruct set as [s|]; [|done].
    rewrite Hc, Hd. repeat case_decide; simpl; by rewrite ?Hc.
  - unfold confirmSet. destruct set as [s|]; [|done].
    rewrite Hc, Hd. repeat case_decide; simpl; by rewrite ?Hd, ?Hp.
  - done.
  - done.
  - simpl. by rewrite Hd.
  - done.
  - simpl. by rewrite Hc.
  - done.
Qed.

Lemma handlers_deterministic_witness :
  same_inputs
    (confirmSet (Some Fixture.A1) Fixture.loaded)
    (confirmSet (Some Fixture.A1)
       (setShowDiscarded true (setQ (of_ascii "ingo") Fixture.loaded))).
Proof.
  apply (proj1 (handlers_deterministic Fixture.loaded
                  (setShowDiscarded true (setQ (of_ascii "ingo") Fixture.loaded))
                  (conj eq_refl (conj eq_refl eq_refl)))).
Defined.

(** ** The team invariant *)

Lemma team_inv_snoc l g :
  team_inv l → (length l < 4)%nat → g ∉ l → team_inv (l ++ [g]).
Proof.
  intros [Hlen Hnd] Hlt Hg. split.
  - rewrite length_app. simpl. lia.
  - apply NoDup_app. repeat split; [done| |apply NoDup_singleton].
    intros x Hx ->%list_elem_of_singleton. done.
Qed.

Lemma team_inv_filter (P : gid → Prop) `{∀ x, Decision (P x)} l :
  team_inv l → team_inv (filter P l).
Proof.
  intros [Hlen Hnd]. split.
  - pose proof (length_filter P l). lia.
  - by apply NoDup_filter.
Qed.

Lemma team_inv_nil : team_inv [].
Proof. split; [simpl; lia|constructor]. Qed.

(** A set shown in the pool view is not confirmed. *)
Lemma visiblePool_not_confirmed sorted conf disc show s :
  s ∈ visiblePool sorted conf disc show → global_id s ∉ conf.
Proof.
  unfold visiblePool. rewrite list_elem_of_filter. intros [Hvis _].
  unfold visible in Hvis. by case_decide.
Qed.

(** C5: every state-changing operation, [markSeen], [unmarkSeen],
    [confirmSet], [removeConfirmed] and [resetAll], as the component invokes
    it, keeps the seen or confirmed list within four pairwise distinct ids;
    [markSeen] of an id already seen, or with four ids present, returns the
    state unchanged; and [confirmSet] keeps the bound of four on any
    argument. *)
Theorem team_invariant_preserved :
  (∀ l l', team_inv l → team_step l l' → team_inv l') ∧
  (∀ st g, g ∈ SeenApp.seen st ∨ (4 ≤ length (SeenApp.seen st))%nat →
           SeenApp.markSeen g st = st) ∧
  (∀ st set, (length (confirmed st) ≤ 4)%nat →
             (length (confirmed (confirmSet set st)) ≤ 4)%nat).
Proof.
  split; [|split].
  - intros l l' Hinv Hstep.
    destruct Hstep as [st g|st g|st|st s Hs%visiblePool_not_confirmed
                      |st|st g|st].
    + unfold SeenApp.markSeen.
      case_decide; [done|]. case_decide; [done|].
      simpl. apply team_inv_snoc; [done|lia|done].
    + simpl. by apply team_inv_filter.
    + apply team_inv_nil.
    + destruct (confirmSet_cases (Some s) st) as [->|(s' & [= <-] & Heq)];
        [done|].
      rewrite Heq. simpl.
      apply team_inv_snoc; [done| |done].
      destruct (decide (4 ≤ length (confirmed st))%nat) as [Hfull|]; [|lia].
      rewrite confirmSet_full_noop in Heq by auto.
      apply (f_equal (λ x, length (confirmed x))) in Heq. simpl in Heq.
      rewrite length_app in Heq. simpl in Heq. lia.
    + done.
    + simpl. by apply team_inv_filter.
    + apply team_inv_nil.
  - intros st g Hguard. unfold SeenApp.markSeen.
    case_decide; [done|]. case_decide; [done|]. naive_solver.
  - intros st set Hlen.
    destruct set as [s|]; [|done]. simpl.
    case_decide; [done|]. case_decide; [done|].
    simpl. rewrite length_app. simpl. lia.
Qed.

Lemma team_invariant_preserved_witness :
  team_inv (confirmed (confirmSet (Some Fixture.A1) Fixture.loaded)) ∧
  SeenApp.markSeen (Val 1) (SeenApp.markSeen (Val 1) SeenApp.initial)
  = SeenApp.markSeen (Val 1) SeenApp.initial.
Proof.
  split.
  - apply (proj1 team_invariant_preserved (confirmed Fixture.loaded)).
    + apply team_inv_nil.
    + apply step_confirmSet. vm_compute. left.
  - apply (proj1 (proj2 team_invariant_preserved)).
    left. vm_compute. left.
Defined.

(** Why [step_confirmSet] is the call from the pool view: the handler by
    itself has no test for an id that is already confirmed.  Applied to the
    set just confirmed, which the view no longer shows, it would store the
    id a second time. *)
Lemma confirmSet_stores_id_twice :
  ¬ (∀ (st : State) (s : PSet),
       team_inv (confirmed st) →
       team_inv (confirmed (confirmSet (Some s) st))).
Proof.
  intros Hclaim.
  specialize (Hclaim (confirmSet (Some Fixture.A1) Fixture.loaded) Fixture.A1).
  assert (Hrun : confirmed (confirmSet (Some Fixture.A1)
                   (confirmSet (Some Fixture.A1) Fixture.loaded))
                 = [Val 1; Val 1]) by (vm_compute; reflexivity).
  rewrite Hrun in Hclaim.
  destruct Hclaim as [_ Hnd].
  - split; [vm_compute; lia|]. vm_compute. apply NoDup_singleton.
  - apply NoDup_cons in Hnd as [Hin _]. apply Hin. left.
Qed.

(** ** Two variants of one species *)

(** C4, counterexample: no handler fails on a species conflict.  In the
    fixture, confirm A1, un-discard its variant A2 by hand, confirm A2: the
    call returns normally and the confirmed list holds both ids. *)
Lemma confirmSet_accepts_species_conflict :
  ¬ (∀ (st : State) (s : PSet),
       species_conflict (poolSets st) (confirmed st ++ [global_id s]) →
       confirmed (confirmSet (Some s) st) ≠ confirmed st ++ [global_id s]).
Proof.
  intros Hclaim.
  apply (Hclaim (toggleDiscard (Val 2)
                   (confirmSet (Some Fixture.A1) Fixture.loaded)) Fixture.A2).
  - exists Fixture.A1, Fixture.A2.
    repeat split; try (vm_compute; congruence).
    + vm_compute. do 4 right. left.
    + vm_compute. do 3 right. left.
    + vm_compute. left.
    + vm_compute. right. left.
  - vm_compute. reflexivity.
Qed.

(** C4, as the handlers have it: no error is raised for a second variant of
    a confirmed species.  After [confirmSet s] succeeds, every other pool set
    of the species of [s] is discarded, and [confirmSet] on it returns the
    state unchanged. *)
Theorem confirmSet_second_variant_ignored (st : State) (s t : PSet) :
  (length (confirmed st) < 4)%nat →
  global_id s ∉ discarded st →
  t ∈ poolSets st →
  global_id t ≠ global_id s →
  species t = species s →
  global_id t ∈ discarded (confirmSet (Some s) st) ∧
  confirmSet (Some t) (confirmSet (Some s) st) = confirmSet (Some s) st.
Proof.
  intros Hlen Hdisc Ht Hid Hsp.
  assert (Hin : global_id t ∈ discarded (confirmSet (Some s) st)).
  { rewrite confirmSet_success by done. simpl.
    apply elem_of_auto_discard. right. exists t.
    split; [done|]. split; [done|]. by left. }
  split; [done|]. by apply confirmSet_discarded_noop.
Qed.

Lemma confirmSet_second_variant_ignored_witness :
  global_id Fixture.A2 ∈ discarded (confirmSet (Some Fixture.A1) Fixture.loaded) ∧
  confirmSet (Some Fixture.A2) (confirmSet (Some Fixture.A1) Fixture.loaded)
  = confirmSet (Some Fixture.A1) Fixture.loaded.
Proof.
  apply confirmSet_second_variant_ignored.
  - vm_compute. lia.
  - vm_compute. set_solver.
  - vm_compute. do 3 right. left.
  - vm_compute. congruence.
  - reflexivity.
Defined.

(** ** The sorted pool *)

(** C10: [poolSortedDex] is a permutation of the pool, ordered by
    [dex_number] ascending with a set whose [dex_number] is not a number
    counted as 999999, ties broken by [global_id] ascending; so nothing with
    a key below 999999 comes after a set without a number. *)
Theorem poolSortedDex_sorted_permutation (pool : list PSet) :
  poolSortedDex pool ≡ₚ pool ∧
  StronglySorted dex_order (poolSortedDex pool) ∧
  ∀ l1 b l2 a,
    poolSortedDex pool = l1 ++ b :: l2 →
    ¬ has_dex_number b →
    a ∈ l2 → 999999 ≤ dex_key a.
Proof.
  split; [apply poolSortedDex_Permutation|].
  split; [apply poolSortedDex_sorted|].
  intros l1 b l2 a Heq Hb Ha.
  pose proof (poolSortedDex_sorted pool) as Hs. rewrite Heq in Hs.
  apply StronglySorted_app_1_r, StronglySorted_cons in Hs as [Hall _].
  rewrite Forall_forall in Hall. specialize (Hall a Ha).
  unfold dex_order, dex_key, has_dex_number in *.
  destruct (dex_number b) as [| |n]; [lia|lia|].
  destruct Hb. by exists n.
Qed.

Lemma poolSortedDex_sorted_permutation_witness :
  global_id <$> poolSortedDex Fixture.pool = [Val 1; Val 2; Val 3; Val 4; Val 5] ∧
  999999 ≤ dex_key Fixture.D1.
Proof.
  split; [reflexivity|].
  apply (proj2 (proj2 (poolSortedDex_sorted_permutation
                         (Fixture.D1 :: Fixture.pool)))
           [Fixture.A1; Fixture.A2; Fixture.B1; Fixture.C1]
           Fixture.D1 [Fixture.D1] Fixture.D1).
  - reflexivity.
  - intros [n Hn]. discriminate Hn.
  - left.
Defined.

(** * Further properties of the component *)

(** ** The lookup map and the seen slots *)

Lemma setById_fold (pool : list PSet) (m : gmap gid PSet) (g : gid) :
  foldl (λ m s, <[global_id s := s]> m) m pool !! g =
  match last (filter (λ s, global_id s = g) pool) with
  | Some s => Some s
  | None => m !! g
  end.
Proof.
  revert m. induction pool as [|x pool IH]; intros m; simpl; [done|].
  rewrite IH, filter_cons.
  destruct (decide (global_id x = g)) as [Hx|Hx].
  - rewrite last_cons.
    destruct (last (filter (λ s, global_id s = g) pool)); [done|].
    by rewrite Hx, lookup_insert_eq.
  - destruct (last (filter (λ s, global_id s = g) pool)); [done|].
    by rewrite lookup_insert_ne.
Qed.

Lemma filter_id_absent (pool : list PSet) (g : gid) :
  g ∉ global_id <$> pool → filter (λ s, global_id s = g) pool = [].
Proof.
  induction pool as [|x pool IH]; simpl; [done|].
  rewrite not_elem_of_cons. intros [Hx Hg].
  by rewrite filter_cons, decide_False, IH.
Qed.

Lemma filter_id_unique (pool : list PSet) (t : PSet) :
  NoDup (global_id <$> pool) → t ∈ pool →
  filter (λ s, global_id s = global_id t) pool = [t].
Proof.
  induction pool as [|x pool IH]; simpl; [by intros _ ?%elem_of_nil|].
  rewrite NoDup_cons. intros [Hx Hnd] Ht. rewrite filter_cons.
  apply elem_of_cons in Ht as [->|Ht].
  - by rewrite decide_True, filter_id_absent.
  - rewrite decide_False, IH; [done..|].
    intros Heq. apply Hx. rewrite Heq. by apply list_elem_of_fmap_2.
Qed.

Lemma setById_last (pool : list PSet) (g : gid) :
  setById pool !! g = last (filter (λ s, global_id s = g) pool).
Proof. unfold setById. rewrite setById_fold. by destruct (last _). Qed.

Lemma setById_unique (pool : list PSet) (t : PSet) :
  NoDup (global_id <$> pool) → t ∈ pool →
  setById pool !! global_id t = Some t.
Proof. intros Hnd Ht. by rewrite setById_last, filter_id_unique. Qed.

(** X1: [setById] maps an id to the last pool set that carries it, and to
    nothing when no pool set does; in a pool with unique ids every pool set
    is found again under its own id. *)
Theorem setById_lookup (pool : list PSet) :
  (∀ g, setById pool !! g = last (filter (λ s, global_id s = g) pool)) ∧
  (NoDup (global_id <$> pool) →
   ∀ t, t ∈ pool → setById pool !! global_id t = Some t).
Proof.
  split; [apply setById_last|].
  intros Hnd t Ht. by apply setById_unique.
Qed.

Lemma setById_lookup_witness :
  setById Fixture.pool !! global_id Fixture.C1 = Some Fixture.C1.
Proof.
  apply (proj2 (setById_lookup Fixture.pool)).
  - vm_compute. repeat constructor; set_solver.
  - vm_compute. do 1 right. left.
Defined.

Lemma confirmedSets_slot (conf : list gid) (m : gmap gid PSet) (i : nat) :
  (i < 4)%nat → confirmedSets conf m !! i = Some (conf !! i ≫= (m !!.)).
Proof.
  intros Hi. unfold confirmedSets.
  destruct conf as [|a [|b [|c [|d conf]]]];
    destruct i as [|[|[|[|i]]]]; try lia; reflexivity.
Qed.

(** X2: the seen panel always has four slots; slot [i] shows the pool set
    registered under the [i]-th confirmed id, and is empty when fewer than
    [i+1] ids are confirmed or when that id is not an id of the pool. *)
Theorem confirmedSets_slots (conf : list gid) (pool : list PSet) :
  length (confirmedSets conf (setById pool)) = 4%nat ∧
  ∀ i, (i < 4)%nat →
       confirmedSets conf (setById pool) !! i
       = Some (conf !! i ≫= λ g, last (filter (λ s, global_id s = g) pool)).
Proof.
  split.
  - unfold confirmedSets.
    by destruct conf as [|a [|b [|c [|d conf]]]].
  - intros i Hi. rewrite confirmedSets_slot by done.
    destruct (conf !! i) as [g|]; simpl; [|done].
    by rewrite setById_last.
Qed.

Lemma confirmedSets_slots_witness :
  confirmedSets [Val 4; Val 9] (setById Fixture.pool) !! 1%nat
  = Some ([Val 4; Val 9] !! 1%nat
          ≫= λ g, last (filter (λ s, global_id s = g) Fixture.pool)).
Proof.
  apply (proj2 (confirmedSets_slots [Val 4; Val 9] Fixture.pool)). lia.
Defined.



(** X4: the confirm button of a tile is disabled exactly when [confirmSet]
    on its set would leave the state as it is. *)
Theorem confirm_button_matches_handler (st : State) (s : PSet) :
  confirm_disabled st s = true ↔ confirmSet (Some s) st = st.
Proof.
  unfold confirm_disabled, canConfirm, isDiscarded.
  rewrite orb_true_iff, negb_true_iff, bool_decide_eq_false,
    bool_decide_eq_true.
  split.
  - intros [Hfull|Hdisc].
    + apply confirmSet_full_noop. lia.
    + by apply confirmSet_discarded_noop.
  - intros Hnoop.
    destruct (decide (length (confirmed st) < 4)%nat) as [Hlen|]; [|by left].
    destruct (decide (global_id s ∈ discarded st)) as [|Hdisc]; [by right|].
    destruct (confirmSet_appends_aux st s Hlen Hdisc) as [Hconf _].
    rewrite Hnoop in Hconf.
    apply (f_equal length) in Hconf. rewrite length_app in Hconf.
    simpl in Hconf. lia.
Qed.

(** ** The deduction along a session *)

Lemma conflicts_sym (a b : PSet) : conflicts a b → conflicts b a.
Proof.
  unfold conflicts, same_species_variant, item_clash. naive_solver.
Qed.

Lemma covered_legal (st : State) :
  covered st → legal_team (poolSets st) (confirmed st).
Proof.
  intros (_ & Hclosed & Hdisj) a b Ha Hb Hca Hcb Hne.
  assert (Hfree : ¬ conflicts a b).
  { intros Hc. apply (Hdisj _ Hcb). by apply (Hclosed a b). }
  unfold conflicts, same_species_variant, item_clash in Hfree.
  split; [naive_solver|].
  intros [Hitem Heq]. apply Hfree. right.
  repeat split; [done|congruence|done|done].
Qed.

Lemma covered_confirmSet (st : State) (s : PSet) :
  s ∈ poolSets st → covered st → covered (confirmSet (Some s) st).
Proof.
  intros Hs (Hnd & Hclosed & Hdisj).
  destruct (decide (length (confirmed st) < 4)%nat) as [Hlen|Hlen];
    [|by rewrite confirmSet_full_noop by lia].
  destruct (decide (global_id s ∈ discarded st)) as [Hdisc|Hdisc];
    [by rewrite confirmSet_discarded_noop|].
  destruct (confirmSet_appends_aux st s Hlen Hdisc) as [Hconf Hd].
  unfold covered. rewrite poolSets_confirmSet, Hconf, Hd.
  split; [done|]. split.
  - intros c t Hc Ht [Hin|Hin%list_elem_of_singleton]%elem_of_app Hct;
      apply elem_of_auto_discard.
    + left. by apply (Hclosed c t).
    + right. exists t. split; [done|]. split; [done|].
      by rewrite <- (pool_set_of_id (poolSets st) s c Hnd Hs Hc Hin).
  - intros g Hg [Hold|(t & Ht & Hid & Hst)]%elem_of_auto_discard.
    + apply elem_of_app in Hg as [Hg|Hg%list_elem_of_singleton];
        [by apply (Hdisj g)|by subst].
    + apply elem_of_app in Hg as [Hg|Hg%list_elem_of_singleton].
      * apply Hdisc. apply (Hclosed t s Ht Hs); [by rewrite Hid|].
        by apply conflicts_sym.
      * subst g. unfold conflicts, same_species_variant, item_clash in Hst.
        naive_solver.
Qed.

Lemma covered_forward_step (st st' : State) :
  covered st → forward_step st st' → covered st'.
Proof.
  intros Hcov Hstep. destruct Hstep as [st s Hs|st g|st g Hnd Hnc].
  - by apply covered_confirmSet.
  - destruct Hcov as (Hnd & Hclosed & Hdisj). repeat split; [done| |].
    + intros c t Hc Ht [_ Hin]%list_elem_of_filter. by apply Hclosed.
    + intros x [_ Hin]%list_elem_of_filter. by apply Hdisj.
  - destruct Hcov as (Hids & Hclosed & Hdisj).
    unfold covered, toggleDiscard. simpl. rewrite decide_False by done.
    repeat split; [done| |].
    + intros c t Hc Ht Hin Hct. apply elem_of_union. right.
      by apply (Hclosed c t).
    + intros x Hx [->%elem_of_singleton|Hd]%elem_of_union; [done|].
      by apply (Hdisj x).
Qed.

(** X5: as long as the user never takes a discard back, the confirmed team
    stays legal.  From a state whose discarded set covers its confirmed
    picks (such as a freshly loaded pool with unique ids), any sequence of
    confirming pool sets, removing confirmed ones and discarding shown sets
    leads to a state where no two confirmed pool sets share a species or a
    non-empty trimmed item. *)
Theorem forward_session_keeps_team_legal (st st' : State) :
  covered st →
  rtc forward_step st st' →
  covered st' ∧ legal_team (poolSets st') (confirmed st').
Proof.
  intros Hcov Hrun.
  assert (Hcov' : covered st').
  { induction Hrun as [st|st st1 st2 Hstep _ IH]; [done|].
    apply IH. by apply (covered_forward_step st). }
  split; [done|by apply covered_legal].
Qed.

Lemma forward_session_keeps_team_legal_witness :
  legal_team Fixture.pool
    (confirmed (confirmSet (Some Fixture.B1)
                  (confirmSet (Some Fixture.A1) Fixture.loaded))).
Proof.
  apply (forward_session_keeps_team_legal Fixture.loaded
           (confirmSet (Some Fixture.B1)
              (confirmSet (Some Fixture.A1) Fixture.loaded))).
  - split; [vm_compute; repeat constructor; set_solver|].
    split; [intros c t _ _ Hin; by apply elem_of_nil in Hin|].
    intros g Hin. by apply elem_of_nil in Hin.
  - eapply rtc_l; [apply forward_confirm; vm_compute; do 4 right; left|].
    eapply rtc_l; [apply forward_confirm; vm_compute; do 2 right; left|].
    apply rtc_refl.
Defined.

Lemma exact_discards_confirmSet (st : State) (s : PSet) :
  NoDup (global_id <$> poolSets st) → s ∈ poolSets st →
  exact_discards st → exact_discards (confirmSet (Some s) st).
Proof.
  intros Hnd Hs Hex.
  destruct (decide (length (confirmed st) < 4)%nat) as [Hlen|Hlen];
    [|by rewrite confirmSet_full_noop by lia].
  destruct (decide (global_id s ∈ discarded st)) as [Hdisc|Hdisc];
    [by rewrite confirmSet_discarded_noop|].
  destruct (confirmSet_appends_aux st s Hlen Hdisc) as [Hconf Hd].
  unfold exact_discards. rewrite poolSets_confirmSet, Hconf, Hd.
  intros g. rewrite elem_of_auto_discard, (Hex g). split.
  - intros [(c & t & Hc & Ht & Hin & Hid & Hct)|(t & Ht & Hid & Hst)].
    + exists c, t. repeat split; try done. apply elem_of_app. by left.
    + exists s, t. repeat split; try done.
      apply elem_of_app. right. by apply list_elem_of_singleton.
  - intros (c & t & Hc & Ht & Hin & Hid & Hct).
    apply elem_of_app in Hin as [Hin|Hin%list_elem_of_singleton].
    + left. by exists c, t.
    + right. exists t. split; [done|]. split; [done|].
      by rewrite <- (pool_set_of_id (poolSets st) s c Hnd Hs Hc Hin).
Qed.

(** X6: confirmations alone discard exactly what they must.  Starting from
    a pool with unique ids, nothing confirmed and nothing discarded, after
    any number of [confirmSet] calls on pool sets an id is discarded if and
    only if it is the id of a pool set that is another variant of the
    species, or another holder of the non-empty item, of a confirmed pool
    set. *)
Theorem confirmations_discard_exactly_conflicts (st st' : State) :
  NoDup (global_id <$> poolSets st) →
  confirmed st = [] →
  discarded st = ∅ →
  rtc confirm_step st st' →
  exact_discards st'.
Proof.
  intros Hnd Hc Hd Hrun.
  assert (Hstart : exact_discards st).
  { intros g. rewrite Hc, Hd. split; [set_solver|].
    intros (c & t & _ & _ & Hin & _). by apply elem_of_nil in Hin. }
  clear Hc Hd.
  induction Hrun as [st|st st1 st2 Hstep _ IH]; [done|].
  destruct Hstep as [st s Hs].
  apply IH.
  - by rewrite poolSets_confirmSet.
  - by apply exact_discards_confirmSet.
Qed.

Lemma confirmations_discard_exactly_conflicts_witness :
  exact_discards (confirmSet (Some Fixture.C1)
                    (confirmSet (Some Fixture.A1) Fixture.loaded)).
Proof.
  apply (confirmations_discard_exactly_conflicts Fixture.loaded).
  - vm_compute. repeat constructor; set_solver.
  - reflexivity.
  - reflexivity.
  - eapply rtc_l;
      [apply confirm_step_intro; vm_compute; do 4 right; left|].
    eapply rtc_l;
      [apply confirm_step_intro; vm_compute; do 1 right; left|].
    apply rtc_refl.
Defined.

(** X7: two confirmations that are both accepted in either order commute:
    the discarded set is the same and the confirmed lists hold the same
    ids. *)
Theorem confirmSet_commute (st : State) (s t : PSet) :
  (length (confirmed st) + 2 ≤ 4)%nat →
  global_id t ∉ discarded (confirmSet (Some s) st) →
  global_id s ∉ discarded (confirmSet (Some t) st) →
  discarded (confirmSet (Some t) (confirmSet (Some s) st))
  = discarded (confirmSet (Some s) (confirmSet (Some t) st)) ∧
  confirmed (confirmSet (Some t) (confirmSet (Some s) st))
  ≡ₚ confirmed (confirmSet (Some s) (confirmSet (Some t) st)).
Proof.
  intros Hlen Ht Hs.
  assert (Hs0 : global_id s ∉ discarded st).
  { intros Hin. apply Hs.
    destruct (confirmSet_cases (Some t) st) as [->|(t' & _ & ->)]; [done|].
    by apply auto_discard_superset. }
  assert (Ht0 : global_id t ∉ discarded st).
  { intros Hin. apply Ht.
    destruct (confirmSet_cases (Some s) st) as [->|(s' & _ & ->)]; [done|].
    by apply auto_discard_superset. }
  destruct (confirmSet_appends_aux st s ltac:(lia) Hs0) as [Hcs Hds].
  destruct (confirmSet_appends_aux st t ltac:(lia) Ht0) as [Hct Hdt].
  destruct (confirmSet_appends_aux (confirmSet (Some s) st) t) as [Hcst Hdst];
    [rewrite Hcs, length_app; simpl; lia|done|].
  destruct (confirmSet_appends_aux (confirmSet (Some t) st) s) as [Hcts Hdts];
    [rewrite Hct, length_app; simpl; lia|done|].
  rewrite Hcst, Hdst, Hcts, Hdts, Hcs, Hds, Hct, Hdt, !poolSets_confirmSet.
  split.
  - apply set_eq. intros g. rewrite !elem_of_auto_discard. naive_solver.
  - rewrite <- !(assoc_L (++)). apply Permutation_app_head.
    apply Permutation_swap.
Qed.

Lemma confirmSet_commute_witness :
  discarded (confirmSet (Some Fixture.C1) (confirmSet (Some Fixture.A1) Fixture.loaded))
  = discarded (confirmSet (Some Fixture.A1) (confirmSet (Some Fixture.C1) Fixture.loaded)).
Proof.
  apply (confirmSet_commute Fixture.loaded Fixture.A1 Fixture.C1).
  - vm_compute. lia.
  - vm_compute. set_solver.
  - vm_compute. set_solver.
Defined.

Lemma filter_ne_snoc (l : list gid) (g : gid) :
  g ∉ l → filter (λ x, x ≠ g) (l ++ [g]) = l.
Proof.
  intros Hg. rewrite filter_app, filter_cons, decide_False, filter_nil
    by (intros Hne; by apply Hne).
  rewrite app_nil_r.
  induction l as [|x l IH]; [done|].
  apply not_elem_of_cons in Hg as [Hx Hg].
  by rewrite filter_cons, decide_True, IH.
Qed.

Lemma elem_of_visiblePool sorted conf disc s :
  s ∈ visiblePool sorted conf disc false ↔
  s ∈ sorted ∧ (global_id s ∉ conf) ∧ (global_id s ∉ disc).
Proof.
  unfold visiblePool, visible. rewrite list_elem_of_filter. simpl.
  rewrite andb_true_r.
  destruct (decide (global_id s ∈ conf)); [naive_solver|].
  destruct (bool_decide_reflect (global_id s ∈ disc)); naive_solver.
Qed.

Lemma confirmSet_discarded_superset set st :
  discarded st ⊆ discarded (confirmSet set st).
Proof.
  destruct (confirmSet_cases set st) as [->|(s & _ & ->)]; [done|].
  apply auto_discard_superset.
Qed.

(** X8: removing a pick right after confirming it restores the confirmed
    list but not the pool view: the sets that the confirmation discarded
    stay hidden. *)
Theorem removeConfirmed_after_confirmSet (st : State) (s x : PSet) :
  global_id s ∉ confirmed st →
  confirmed (removeConfirmed (global_id s) (confirmSet (Some s) st))
  = confirmed st ∧
  (x ∈ visiblePool (poolSortedDex (poolSets st))
         (confirmed (removeConfirmed (global_id s) (confirmSet (Some s) st)))
         (discarded (removeConfirmed (global_id s) (confirmSet (Some s) st)))
         false ↔
   x ∈ visiblePool (poolSortedDex (poolSets st))
         (confirmed st) (discarded st) false ∧
   global_id x ∉ discarded (confirmSet (Some s) st)).
Proof.
  intros Hs.
  assert (Hconf : confirmed (removeConfirmed (global_id s)
                    (confirmSet (Some s) st)) = confirmed st).
  { destruct (confirmSet_cases (Some s) st) as [->|(s' & [= <-] & ->)];
      simpl; [|by apply filter_ne_snoc].
    clear -Hs. induction (confirmed st) as [|y l IH]; [done|].
    apply not_elem_of_cons in Hs as [Hy Hs].
    by rewrite filter_cons, decide_True, IH. }
  split; [done|].
  rewrite Hconf, !elem_of_visiblePool. simpl.
  pose proof (confirmSet_discarded_superset (Some s) st) as Hsub.
  set_solver.
Qed.

Lemma removeConfirmed_after_confirmSet_witness :
  confirmed (removeConfirmed (global_id Fixture.A1)
               (confirmSet (Some Fixture.A1) Fixture.loaded))
  = confirmed Fixture.loaded.
Proof.
  apply (removeConfirmed_after_confirmSet Fixture.loaded Fixture.A1 Fixture.A2).
  apply not_elem_of_nil.
Defined.

(** ** The counters of the pool header *)

Lemma count_by_id (pool : list PSet) (l : list gid) :
  NoDup (global_id <$> pool) → NoDup l →
  (∀ g, g ∈ l → g ∈ global_id <$> pool) →
  length (filter (λ s, global_id s ∈ l) pool) = length l.
Proof.
  intros Hnd Hl Hsub.
  rewrite <- (length_fmap global_id).
  apply Permutation_length, NoDup_Permutation; [|done|].
  - clear Hsub. induction pool as [|x pool IH]; simpl; [constructor|].
    apply NoDup_cons in Hnd as [Hx Hnd]. rewrite filter_cons.
    case_decide; simpl; [|by apply IH].
    apply NoDup_cons. split; [|by apply IH].
    intros [y [Heq [_ Hy]%list_elem_of_filter]]%list_elem_of_fmap.
    apply Hx. rewrite Heq. by apply list_elem_of_fmap_2.
  - intros g. rewrite list_elem_of_fmap. split.
    + intros (y & -> & [Hy _]%list_elem_of_filter). done.
    + intros Hg. pose proof (Hsub g Hg) as Hin.
      apply list_elem_of_fmap in Hin as [y [-> Hy]].
      exists y. split; [done|]. by apply list_elem_of_filter.
Qed.

(** X9: the counters of the pool header add up.  In a pool with unique ids,
    when the confirmed ids are distinct ids of the pool and the discarded
    ids are ids of the pool that are not confirmed, "shown" plus
    "confirmed" plus "discarded" is "total" while discarded sets are
    hidden, and "shown" plus "confirmed" is "total" while they are shown. *)
Theorem counters_add_up (st : State) :
  NoDup (global_id <$> poolSets st) →
  NoDup (confirmed st) →
  (∀ g, g ∈ confirmed st → g ∈ global_id <$> poolSets st) →
  (∀ g, g ∈ discarded st →
        g ∈ global_id <$> poolSets st ∧ g ∉ confirmed st) →
  (shownCount st + confirmedCount st
   + (if showDiscarded st then 0 else discardedCount st))%nat = total st.
Proof.
  intros Hnd Hc Hcin Hd.
  unfold shownCount, confirmedCount, discardedCount, total, visiblePool.
  pose proof (poolSortedDex_Permutation (poolSets st)) as Hperm.
  rewrite <- (Permutation_length Hperm).
  assert (Hnd' : NoDup (global_id <$> poolSortedDex (poolSets st)))
    by by rewrite Hperm.
  set (sorted := poolSortedDex (poolSets st)) in *.
  set (hidden := if showDiscarded st then confirmed st
                 else confirmed st ++ elements (discarded st)).
  assert (Hlen : (length (confirmed st)
                  + (if showDiscarded st then 0 else size (discarded st)))%nat
                 = length hidden).
  { unfold hidden. destruct (showDiscarded st); [lia|].
    by rewrite length_app. }
  assert (Hhidden : length (filter (λ s, global_id s ∈ hidden) sorted)
                    = length hidden).
  { apply count_by_id; [done| |].
    - unfold hidden. destruct (showDiscarded st); [done|].
      apply NoDup_app. split; [done|]. split; [|apply NoDup_elements].
      intros g Hg Hin%elem_of_elements. by apply (Hd g).
    - intros g Hg. rewrite Hperm. unfold hidden in Hg.
      destruct (showDiscarded st); [by apply Hcin|].
      apply elem_of_app in Hg as [Hg|Hg%elem_of_elements];
        [by apply Hcin|by apply Hd]. }
  rewrite <- (Permutation_length
    (filter_app_complement
       (λ s, Is_true (visible (confirmed st) (discarded st)
                        (showDiscarded st) s)) sorted)).
  rewrite length_app.
  assert (Hcompl :
    filter (λ s, ¬ Is_true (visible (confirmed st) (discarded st)
                              (showDiscarded st) s)) sorted
    = filter (λ s, global_id s ∈ hidden) sorted).
  { apply list_filter_iff. intros s. unfold visible, hidden.
    destruct (showDiscarded st); simpl.
    - rewrite andb_false_r. case_decide; naive_solver.
    - rewrite andb_true_r, elem_of_app, elem_of_elements.
      case_decide; [naive_solver|].
      destruct (bool_decide_reflect (global_id s ∈ discarded st));
        naive_solver. }
  rewrite Hcompl, Hhidden. lia.
Qed.

Lemma counters_add_up_witness :
  (shownCount (confirmSet (Some Fixture.A1) Fixture.loaded)
   + confirmedCount (confirmSet (Some Fixture.A1) Fixture.loaded)
   + discardedCount (confirmSet (Some Fixture.A1) Fixture.loaded))%nat = 5%nat.
Proof.
  assert (Hc : confirmed (confirmSet (Some Fixture.A1) Fixture.loaded)
               = [Val 1]) by reflexivity.
  assert (Hd : elements (discarded (confirmSet (Some Fixture.A1) Fixture.loaded))
               = [Val 3; Val 2]) by reflexivity.
  apply (counters_add_up (confirmSet (Some Fixture.A1) Fixture.loaded)).
  - vm_compute. repeat constructor; set_solver.
  - rewrite Hc. apply NoDup_singleton.
  - intros g. rewrite Hc. intros ->%list_elem_of_singleton.
    vm_compute. do 4 right. left.
  - intros g Hin. rewrite Hc.
    assert (Hg : g ∈ [Val 3; Val 2 : gid]).
    { apply elem_of_elements in Hin.
      exact (eq_ind _ (λ l : list gid, g ∈ l) Hin _ Hd). }
    apply elem_of_cons in Hg as [->|Hg];
      [|apply list_elem_of_singleton in Hg as ->].
    + split; [vm_compute; do 2 right; left|].
      by intros ?%list_elem_of_singleton.
    + split; [vm_compute; do 3 right; left|].
      by intros ?%list_elem_of_singleton.
Defined.

(** ** The pool order does not depend on the order received *)

Lemma sort_sorted_id {A : Type} (cmp : A → A → Z) (l : list A) :
  StronglySorted (λ a b, cmp a b ≤ 0) l → Js.sort cmp l = l.
Proof.
  induction 1 as [|x l Hl IH Hx]; simpl; [done|].
  rewrite IH. destruct l as [|y l']; [done|]. simpl.
  apply Forall_cons in Hx as [Hxy _]. by rewrite decide_True.
Qed.

Lemma same_sort_keys (pool : list PSet) (a b : PSet) :
  NoDup ((λ s, (dex_key s, id_key s)) <$> pool) →
  a ∈ pool → b ∈ pool →
  dex_key a = dex_key b → id_key a = id_key b → a = b.
Proof.
  induction pool as [|x pool IH]; simpl; [by intros _ ?%elem_of_nil|].
  rewrite NoDup_cons. intros [Hx Hnd] Ha Hb Hd Hi.
  apply elem_of_cons in Ha as [->|Ha], Hb as [->|Hb]; [done| | |by apply IH].
  - destruct Hx. rewrite Hd, Hi.
    by apply (list_elem_of_fmap_2 (λ s, (dex_key s, id_key s))).
  - destruct Hx. rewrite <- Hd, <- Hi.
    by apply (list_elem_of_fmap_2 (λ s, (dex_key s, id_key s))).
Qed.

(** X10: the pool order is canonical.  Sorting a pool that is already in
    pool order changes nothing, and two arrays holding the same sets in
    different orders are shown in the same order, provided no two sets
    share both sort keys (Pokédex number and global id). *)
Theorem poolSortedDex_canonical (pool1 pool2 : list PSet) :
  poolSortedDex (poolSortedDex pool1) = poolSortedDex pool1 ∧
  (pool1 ≡ₚ pool2 →
   NoDup ((λ s, (dex_key s, id_key s)) <$> pool1) →
   poolSortedDex pool1 = poolSortedDex pool2).
Proof.
  split.
  - apply sort_sorted_id.
    apply (sort_sorted dex_compare dex_compare_total dex_compare_trans).
  - intros Hperm Hnd.
    apply (StronglySorted_unique_strong dex_order).
    + intros a b Ha Hb Hab Hba.
      rewrite poolSortedDex_Permutation in Ha.
      rewrite poolSortedDex_Permutation, <- Hperm in Hb.
      apply (same_sort_keys pool1); [done..| |];
        unfold dex_order in Hab, Hba; lia.
    + apply poolSortedDex_sorted.
    + apply poolSortedDex_sorted.
    + by rewrite !poolSortedDex_Permutation.
Qed.

Lemma poolSortedDex_canonical_witness :
  poolSortedDex Fixture.pool = poolSortedDex (reverse Fixture.pool).
Proof.
  apply (poolSortedDex_canonical Fixture.pool (reverse Fixture.pool)).
  - by rewrite reverse_Permutation.
  - vm_compute. repeat constructor; set_solver.
Defined.

(** ** Loading a trainer *)



(** ** Display names *)

Lemma of_ascii_inj (s1 s2 : string) : of_ascii s1 = of_ascii s2 → s1 = s2.
Proof.
  unfold of_ascii. intros Heq.
  rewrite <- (string_of_list_ascii_of_string s1),
          <- (string_of_list_ascii_of_string s2).
  f_equal. revert Heq.
  generalize (list_ascii_of_string s1) (list_ascii_of_string s2).
  induction l as [|a l IH]; intros [|b l']; simpl; try done.
  intros [= Hab Hl]. f_equal; [|by apply IH].
  by rewrite <- (ascii_N_embedding a), <- (ascii_N_embedding b), Hab.
Qed.

(** X12: variants of one species that carry different variant numbers,
    none of them 0, get different display names; a set whose variant index
    is 0 is displayed like a set without variant index, by its species
    alone. *)
Theorem setDisplayName_tells_variants_apart (a b : PSet) (n m : Z) :
  species a = species b →
  variant_index a = Val n →
  variant_index b = Val m →
  n ≠ 0 →
  (m ≠ 0 → n ≠ m →
   Display.setDisplayName (Some a) ≠ Display.setDisplayName (Some b)) ∧
  (m = 0 → Display.setDisplayName (Some b) = species b).
Proof.
  intros Hsp Ha Hb Hn. unfold Display.setDisplayName. rewrite Ha, Hb, Hsp.
  split.
  - intros Hm Hnm. rewrite !decide_True by done.
    intros [= Heq%(inj (app _))].
    change (of_ascii "-" ++ Display.number_to_string n
            = of_ascii "-" ++ Display.number_to_string m) in Heq.
    apply (inj (app _)) in Heq.
    apply Hnm. apply (inj pretty). by apply of_ascii_inj.
  - intros ->. by rewrite decide_False by (intros Hne; by apply Hne).
Qed.

Lemma setDisplayName_tells_variants_apart_witness :
  Display.setDisplayName
    (Some (mkPSet (Val 7) (Val (of_ascii "Pikachu")) Null (Val 25) (Val 1)))
  ≠ Display.setDisplayName
      (Some (mkPSet (Val 8) (Val (of_ascii "Pikachu")) Null (Val 25) (Val 2))).
Proof.
  apply (setDisplayName_tells_variants_apart _ _ 1 2);
    [reflexivity|reflexivity|reflexivity|lia|lia|lia].
Defined.

(** ** Move labels *)

Lemma split_no_sep (sep : N) (s w : jsstring) :
  w ∈ Display.split sep s → sep ∉ w.
Proof.
  revert w. induction s as [|c s IH]; simpl; intros w.
  - intros ->%list_elem_of_singleton. apply not_elem_of_nil.
  - case_decide as Hc.
    + intros [->|Hw]%elem_of_cons; [apply not_elem_of_nil|by apply IH].
    + destruct (Display.split sep s) as [|w0 ws].
      * intros ->%list_elem_of_singleton.
        by intros ->%list_elem_of_singleton.
      * intros [->|Hw]%elem_of_cons.
        -- apply not_elem_of_cons. split; [done|]. apply IH. left.
        -- apply IH. by right.
Qed.

Lemma split_all_empty (sep : N) (s : jsstring) :
  Forall (λ w, w = []) (Display.split sep s) ↔ Forall (λ c, c = sep) s.
Proof.
  induction s as [|c s IH]; simpl.
  - split; intros _; by repeat constructor.
  - case_decide as Hc.
    + rewrite !Forall_cons, IH. naive_solver.
    + rewrite Forall_cons. split; [|naive_solver].
      destruct (Display.split sep s); by intros [? _]%Forall_cons_1.
Qed.

Lemma join_elem_of (sep : jsstring) (l : list jsstring) (x : N) :
  x ∈ Display.join sep l → x ∈ sep ∨ ∃ w, w ∈ l ∧ x ∈ w.
Proof.
  induction l as [|w l IH]; simpl; [by intros ?%elem_of_nil|].
  destruct l as [|w' l].
  - intros Hx. right. exists w. split; [left|done].
  - intros [Hx|[Hx|Hx]%elem_of_app]%elem_of_app.
    + right. exists w. split; [left|done].
    + by left.
    + destruct (IH Hx) as [?|(w0 & Hw0 & ?)]; [by left|].
      right. exists w0. split; [by right|done].
Qed.

Lemma join_nil_inv (sep : jsstring) (l : list jsstring) :
  Forall (λ w, w ≠ []) l → Display.join sep l = [] → l = [].
Proof.
  destruct l as [|w l]; [done|].
  intros [Hw _]%Forall_cons_1. simpl.
  destruct l; [done|]. by intros [? _]%app_eq_nil.
Qed.

Section slug_properties.
Context (toUpperCase : jsstring → jsstring).
Hypothesis upper_no_hyphen : ∀ c, c ≠ 45%N → 45%N ∉ toUpperCase [c].
Hypothesis upper_not_empty : ∀ c, toUpperCase [c] ≠ [].

(** X13: a move name made from a slug never contains a hyphen, given that
    upper-casing a character other than the hyphen does not produce one. *)
Theorem prettyMoveNameFromSlug_no_hyphen (slug : nullable jsstring)
    (label : jsstring) :
  Display.prettyMoveNameFromSlug toUpperCase slug = Val label →
  45%N ∉ label.
Proof using upper_no_hyphen.
  unfold Display.prettyMoveNameFromSlug.
  destruct slug as [| |s]; [done|done|].
  destruct (truthy s); [|done]. intros [= <-] Hin.
  apply join_elem_of in Hin as [Hsp|(w' & Hw' & Hin)].
  - by apply list_elem_of_singleton in Hsp.
  - apply list_elem_of_fmap in Hw' as (w & -> & [Hne Hw]%list_elem_of_filter).
    apply split_no_sep in Hw.
    destruct w as [|c w]; [done|].
    apply not_elem_of_cons in Hw as [Hc Hw].
    unfold Display.capitalize in Hin. simpl in Hin.
    apply elem_of_app in Hin as [Hin|Hin]; [|done].
    by apply (upper_no_hyphen c).
Qed.

(** X14: the label of a move row.  Without a slug, or with the empty slug,
    the label is the move's name; with any other slug the label is the name
    made from the slug, which is the empty string exactly when the slug
    consists of hyphens only: the move's name is not used then either. *)
Theorem move_label_fallback (slug name : nullable jsstring) :
  (slug = Undefined ∨ slug = Null ∨ slug = Val [] →
   Display.move_label toUpperCase slug name = name) ∧
  (∀ s, slug = Val s → s ≠ [] →
        ∃ l, Display.move_label toUpperCase slug name = Val l ∧
             (l = [] ↔ Forall (λ c, c = 45%N) s)).
Proof using upper_not_empty.
  split.
  - by intros [->|[->| ->]].
  - intros s -> Hs. unfold Display.move_label, Display.prettyMoveNameFromSlug.
    destruct s as [|c0 s0]; [done|]. simpl truthy. cbv iota.
    eexists. split; [done|].
    set (s := c0 :: s0).
    rewrite <- (split_all_empty 45%N s). split.
    + intros Hnil. apply join_nil_inv in Hnil.
      * apply fmap_nil_inv in Hnil.
        apply Forall_forall. intros w Hw.
        destruct w as [|c w]; [done|].
        assert (Hin : (c :: w) ∈ filter (λ w, Is_true (truthy w))
                        (Display.split 45%N s))
          by by apply list_elem_of_filter.
        rewrite Hnil in Hin. by apply elem_of_nil in Hin.
      * apply Forall_fmap, Forall_forall.
        intros w [Hne _]%list_elem_of_filter. destruct w as [|c w]; [done|].
        unfold Display.capitalize. simpl. intros [? _]%app_eq_nil.
        by apply (upper_not_empty c).
    + intros Hall.
      assert (Hnone : filter (λ w, Is_true (truthy w)) (Display.split 45%N s)
                      = []).
      { induction Hall as [|w l -> _ IH]; [done|].
        by rewrite filter_cons. }
      by rewrite Hnone.
Qed.
End slug_properties.

Lemma ascii_upper_no_hyphen (c : N) :
  c ≠ 45%N → 45%N ∉ Display.ascii_upper [c].
Proof.
  intros Hc. unfold Display.ascii_upper. simpl.
  intros Hin%list_elem_of_singleton.
  destruct (N.leb_spec 97 c), (N.leb_spec c 122); simpl in Hin; lia.
Qed.

Lemma prettyMoveNameFromSlug_no_hyphen_witness :
  45%N ∉ of_ascii "High Jump Kick".
Proof.
  apply (prettyMoveNameFromSlug_no_hyphen Display.ascii_upper
           ascii_upper_no_hyphen (Val (of_ascii "high-jump-kick"))).
  reflexivity.
Defined.

Lemma move_label_fallback_witness :
  Display.move_label Display.ascii_upper (Val []) (Val (of_ascii "Tackle"))
  = Val (of_ascii "Tackle") ∧
  ∃ l, Display.move_label Display.ascii_upper (Val (of_ascii "--"))
         (Val (of_ascii "Tackle")) = Val l ∧
       (l = [] ↔ Forall (λ c, c = 45%N) (of_ascii "--")).
Proof.
  assert (Hne : ∀ c, Display.ascii_upper [c] ≠ []) by done.
  split.
  - apply (proj1 (move_label_fallback Display.ascii_upper Hne
                    (Val []) (Val (of_ascii "Tackle")))).
    by right; right.
  - apply (proj2 (move_label_fallback Display.ascii_upper Hne
                    (Val (of_ascii "--")) (Val (of_ascii "Tackle")))).
    + reflexivity.
    + done.
Defined.

(** ** The seen list of the earlier component *)

(** X15: in the earlier component, marking an id that is not yet seen and
    unmarking it again gives back the state, and marking the same id twice
    is the same as marking it once. *)
Theorem markSeen_unmarkSeen (st : SeenApp.State) (g : gid) :
  SeenApp.markSeen g (SeenApp.markSeen g st) = SeenApp.markSeen g st ∧
  (g ∉ SeenApp.seen st →
   SeenApp.unmarkSeen g (SeenApp.markSeen g st) = st).
Proof.
  split.
  - destruct (decide (g ∈ SeenApp.seen st)) as [Hin|Hin];
      [|destruct (decide (4 ≤ length (SeenApp.seen st))%nat) as [Hfull|Hfull]].
    + assert (Hnoop : SeenApp.markSeen g st = st)
        by (unfold SeenApp.markSeen; by rewrite decide_True).
      by rewrite !Hnoop.
    + assert (Hnoop : SeenApp.markSeen g st = st).
      { unfold SeenApp.markSeen. rewrite decide_False by done.
        by rewrite decide_True. }
      by rewrite !Hnoop.
    + assert (Hrun : SeenApp.markSeen g st
                     = SeenApp.setSeen (λ prev, prev ++ [g]) st).
      { unfold SeenApp.markSeen. by rewrite !decide_False. }
      rewrite Hrun. unfold SeenApp.markSeen. simpl.
      rewrite decide_True; [done|]. apply elem_of_app. right. left.
  - intros Hg. destruct st as [q0 sg tr sel sn fi]. simpl in Hg.
    unfold SeenApp.markSeen, SeenApp.unmarkSeen, SeenApp.setSeen. simpl.
    rewrite decide_False by done.
    assert (Hsame : filter (λ x, x ≠ g) sn = sn).
    { clear -Hg. induction sn as [|y l IH]; [done|].
      apply not_elem_of_cons in Hg as [Hy Hg].
      by rewrite filter_cons, decide_True, IH. }
    case_decide; simpl; [by rewrite Hsame|by rewrite filter_ne_snoc].
Qed.

Lemma markSeen_unmarkSeen_witness :
  SeenApp.unmarkSeen (Val 3) (SeenApp.markSeen (Val 3) SeenApp.initial)
  = SeenApp.initial.
Proof.
  apply (proj2 (markSeen_unmarkSeen SeenApp.initial (Val 3))).
  apply not_elem_of_nil.
Defined.

(** ** What a click does to the pool view *)

(** X16: while discarded sets are hidden, discarding an id that is not yet
    discarded removes from the pool view exactly the tiles with that id,
    keeping the others in place. *)
Theorem toggleDiscard_hides_tile (st : State) (g : gid) (sorted : list PSet) :
  g ∉ discarded st →
  visiblePool sorted (confirmed (toggleDiscard g st))
    (discarded (toggleDiscard g st)) false
  = filter (λ s, global_id s ≠ g)
      (visiblePool sorted (confirmed st) (discarded st) false).
Proof.
  intros Hg. unfold visiblePool, toggleDiscard. simpl.
  rewrite decide_False by done.
  rewrite list_filter_filter. apply list_filter_iff. intros s.
  unfold visible. simpl. rewrite !andb_true_r.
  destruct (decide (global_id s ∈ confirmed st)); [naive_solver|].
  destruct (bool_decide_reflect (global_id s ∈ discarded st)) as [Hd|Hd].
  - rewrite bool_decide_eq_true_2 by set_solver. naive_solver.
  - destruct (decide (global_id s = g)) as [Heq|Hne].
    + rewrite bool_decide_eq_true_2 by set_solver. naive_solver.
    + rewrite bool_decide_eq_false_2 by set_solver. naive_solver.
Qed.

Lemma toggleDiscard_hides_tile_witness :
  visiblePool (poolSortedDex Fixture.pool)
    (confirmed (toggleDiscard (Val 4) Fixture.loaded))
    (discarded (toggleDiscard (Val 4) Fixture.loaded)) false
  = filter (λ s, global_id s ≠ Val 4)
      (visiblePool (poolSortedDex Fixture.pool)
         (confirmed Fixture.loaded) (discarded Fixture.loaded) false).
Proof.
  apply (toggleDiscard_hides_tile Fixture.loaded (Val 4)).
  apply not_elem_of_empty.
Defined.

(** X17: the deduction step seen from the pool view.  In a pool with unique
    ids, when [confirmSet] accepts [s], the sets shown afterwards (discarded
    sets hidden) are exactly the sets shown before that are not [s] itself,
    not another variant of its species and not another holder of its
    non-empty item. *)
Theorem confirmSet_narrows_view (st : State) (s x : PSet) :
  NoDup (global_id <$> poolSets st) →
  (length (confirmed st) < 4)%nat →
  global_id s ∉ discarded st →
  x ∈ visiblePool (poolSortedDex (poolSets (confirmSet (Some s) st)))
        (confirmed (confirmSet (Some s) st))
        (discarded (confirmSet (Some s) st)) false ↔
  x ∈ visiblePool (poolSortedDex (poolSets st))
        (confirmed st) (discarded st) false ∧
  global_id x ≠ global_id s ∧ ¬ conflicts s x.
Proof.
  intros Hnd Hlen Hdisc.
  destruct (confirmSet_appends_aux st s Hlen Hdisc) as [Hconf Hd].
  rewrite poolSets_confirmSet, Hconf, Hd, !elem_of_visiblePool.
  rewrite not_elem_of_app, list_elem_of_singleton, elem_of_auto_discard.
  rewrite (poolSortedDex_Permutation (poolSets st)).
  split.
  - intros (Hx & [Hnc Hne] & Hnd').
    repeat split; [done|done|naive_solver|done|].
    intros Hc. apply Hnd'. right. by exists x.
  - intros ((Hx & Hnc & Hnd') & Hne & Hfree).
    repeat split; [done|done|done|].
    intros [?|(t & Ht & Hid & Hc)]; [done|].
    apply Hfree.
    by rewrite <- (pool_set_of_id (poolSets st) x t Hnd Hx Ht Hid).
Qed.

Lemma confirmSet_narrows_view_witness :
  Fixture.C1 ∈ visiblePool
    (poolSortedDex (poolSets (confirmSet (Some Fixture.A1) Fixture.loaded)))
    (confirmed (confirmSet (Some Fixture.A1) Fixture.loaded))
    (discarded (confirmSet (Some Fixture.A1) Fixture.loaded)) false.
Proof.
  apply (confirmSet_narrows_view Fixture.loaded Fixture.A1 Fixture.C1).
  - vm_compute. repeat constructor; set_solver.
  - vm_compute. lia.
  - vm_compute. set_solver.
  - split; [|split].
    + vm_compute. do 3 right. left.
    + discriminate.
    + unfold conflicts, same_species_variant, item_clash.
      intros [[_ Hsp]|(_ & _ & _ & Hit)]; [discriminate Hsp|].
      vm_compute in Hit. discriminate Hit.
Defined.
